(** * Shotcut [src/util.cpp]: a shallow embedding of the utility routines

    The development follows [Util::coerceMultiple], [Util::isDecimalPoint],
    [Util::isNumeric], [Util::convertNumericString], [Util::removeFileScheme],
    the three GoPro name tests, [Util::sortedFileList] and [Util::getFileHash],
    then [Util::baseName], [Util::convertDecimalPoints],
    [Util::expandDirectories] and [Util::getHash].

    Qt values are modelled as the code uses them: a [QChar] is a UTF-16 code
    unit, a [QString] the list of its code units, a [QByteArray] a list of
    bytes, a C++ [int] a [Z] with 32-bit two's complement wrap-around. *)

From Stdlib Require Import Ascii String.
From Stdlib.Strings Require Import Byte.
From Stdlib Require Import ZArith NArith Bool Lia List Permutation.
Import ListNotations.

Set Implicit Arguments.

(** ** QChar and QString *)

Definition QChar := N.
Definition QString := list QChar.
Definition QStringList := list QString.

(** A character literal of the source ('+', '.', ...) as a code unit. *)
Definition chr (a : ascii) : QChar := N_of_ascii a.

(** A string literal of the source ("GOPR", "file", ...). *)
Definition qs (s : string) : QString := map chr (list_ascii_of_string s).

Definition QChar_eqb (a b : QChar) : bool := N.eqb a b.

Fixpoint QString_eqb (a b : QString) : bool :=
  match a, b with
  | [], [] => true
  | x :: a', y :: b' => QChar_eqb x y && QString_eqb a' b'
  | _, _ => false
  end.

(** [QString::size] and [QList::size]. *)
Definition size {A : Type} (s : list A) : Z := Z.of_nat (length s).

(** [QString::mid(pos)]: the code units from [pos] to the end. *)
Definition mid (pos : nat) (s : QString) : QString := skipn pos s.

(** [QString::left(n)]: the first [n] code units. *)
Definition left (n : nat) (s : QString) : QString := firstn n s.

(** [QStringList::contains(str)], case sensitive. *)
Definition contains (l : QStringList) (s : QString) : bool :=
  existsb (QString_eqb s) l.

(** The parts of Qt's Unicode tables and of [QUrl] the code calls, with the
    facts about them the proofs rest on.  [toUpper] is [QString::toUpper]
    (full case conversion never shortens a string), [QChar_toLower] is
    [QChar::toLower] (only 'E' and 'e' lower to 'e'), [QChar_isDigit] is
    [QChar::isDigit] (category Nd), [fromPercentEncoding] is
    [QUrl::fromPercentEncoding(s.toUtf8())]. *)
Class QtText := {
  toUpper : QString -> QString;
  QChar_toLower : QChar -> QChar;
  QChar_isDigit : QChar -> bool;
  fromPercentEncoding : QString -> QString;
  toUpper_length : forall s, (length s <= length (toUpper s))%nat;
  toLower_e : forall c, QChar_toLower c = chr "e" <-> c = chr "e" \/ c = chr "E"
}.

(** ** C++ [int] *)

Module Int.

Definition INT_MAX : Z := 2147483647.
Definition INT_MIN : Z := -2147483648.

Definition in_range (x : Z) : Prop := (INT_MIN <= x <= INT_MAX)%Z.

(** Two's complement wrap-around of a mathematical result into 32 bits. *)
Definition wrap (x : Z) : Z := ((x + 2147483648) mod 4294967296 - 2147483648)%Z.

Definition add (a b : Z) : Z := wrap (a + b).
Definition sub (a b : Z) : Z := wrap (a - b).
Definition mul (a b : Z) : Z := wrap (a * b).

(** Division truncates toward zero; a zero divisor and INT_MIN / -1 trap. *)
Definition div (a b : Z) : option Z :=
  if ((b =? 0) || ((a =? INT_MIN) && (b =? -1)))%Z then None
  else Some (Z.quot a b).

End Int.

(** [Util::coerceMultiple]: [(value + multiple - 1) / multiple * multiple]. *)
Definition coerceMultiple (value multiple : Z) : option Z :=
  match Int.div (Int.sub (Int.add value multiple) 1) multiple with
  | Some q => Some (Int.mul q multiple)
  | None => None
  end.

(** [r] is the smallest multiple of [m] that is at least [v]. *)
Definition smallest_multiple_geq (m v r : Z) : Prop :=
  (m | r)%Z /\ (v <= r)%Z /\ forall r', (m | r')%Z -> (v <= r')%Z -> (r <= r')%Z.

(** ** Numeric strings *)

(** [Util::isDecimalPoint]. *)
Definition isDecimalPoint (ch : QChar) : bool :=
  QChar_eqb ch (chr ".") || QChar_eqb ch (chr ",") || QChar_eqb ch (chr "'")
  || QChar_eqb ch (chr " ")
  || QChar_eqb ch 0x00B7%N || QChar_eqb ch 0x2009%N || QChar_eqb ch 0x202F%N
  || QChar_eqb ch 0x02D9%N || QChar_eqb ch 0x066B%N || QChar_eqb ch 0x066C%N
  || QChar_eqb ch 0x2396%N.

Section NumericString.
Context {qt : QtText}.

(** The test of one character in [Util::isNumeric]: the loop returns false
    at the first character for which this is false. *)
Definition numericChar (ch : QChar) : bool :=
  negb (negb (QChar_eqb ch (chr "+")) && negb (QChar_eqb ch (chr "-"))
        && negb (QChar_eqb (QChar_toLower ch) (chr "e"))
        && negb (isDecimalPoint ch) && negb (QChar_isDigit ch)).

(** [Util::isNumeric]: the loop over [str[i]], [i] from 0 to [size - 1]. *)
Fixpoint isNumeric (str : QString) : bool :=
  match str with
  | [] => true
  | ch :: rest => if negb (numericChar ch) then false else isNumeric rest
  end.

(** The loop of [Util::convertNumericString] from some index on: the
    characters still to visit and the flag so far; it returns the flag and
    the characters as the loop leaves them. *)
Fixpoint convertLoop (str : QString) (decimalPoint : QChar) (result : bool)
  : bool * QString :=
  match str with
  | [] => (result, [])
  | ch :: rest =>
      if negb (QChar_eqb ch decimalPoint) && isDecimalPoint ch
      then let (r, rest') := convertLoop rest decimalPoint true in
           (r, decimalPoint :: rest')
      else let (r, rest') := convertLoop rest decimalPoint result in
           (r, ch :: rest')
  end.

(** [Util::convertNumericString]: [str] is passed by reference, so the model
    returns the result together with the string after the call. *)
Definition convertNumericString (str : QString) (decimalPoint : QChar)
  : bool * QString :=
  if isNumeric str then convertLoop str decimalPoint false
  else (false, str).

End NumericString.

(** ** QFileInfo, on a platform whose separator is '/' *)

Record QFileInfo := mkQFileInfo { filePath : QString }.

(** The code units after the last [sep] of [s]; [None] when [s] has none. *)
Fixpoint afterLast (sep : QChar) (s : QString) : option QString :=
  match s with
  | [] => None
  | c :: rest =>
      match afterLast sep rest with
      | Some t => Some t
      | None => if QChar_eqb c sep then Some rest else None
      end
  end.

(** The code units before the first [sep] of [s]; all of [s] when it has none. *)
Fixpoint upToFirst (sep : QChar) (s : QString) : QString :=
  match s with
  | [] => []
  | c :: rest => if QChar_eqb c sep then [] else c :: upToFirst sep rest
  end.

(** [QFileInfo::fileName]: the path without its directories. *)
Definition fileName (fi : QFileInfo) : QString :=
  match afterLast (chr "/") (filePath fi) with
  | Some t => t
  | None => filePath fi
  end.

(** [QFileInfo::baseName]: the file name up to its first '.'. *)
Definition baseName (fi : QFileInfo) : QString :=
  upToFirst (chr ".") (fileName fi).

(** [QFileInfo::suffix]: the file name after its last '.', empty without one. *)
Definition suffix (fi : QFileInfo) : QString :=
  match afterLast (chr ".") (fileName fi) with
  | Some t => t
  | None => []
  end.

(** ** QUrl: what the code reads of a URL *)

Record QUrl := mkQUrl {
  QUrl_scheme : QString;        (* url.scheme() *)
  QUrl_url : QString;           (* url.url() *)
  QUrl_toLocalString : QString  (* url.toString(QUrl::PreferLocalFile) *)
}.

(** ** QMap<QString, QStringList>: entries in ascending key order *)

(** [operator<] on QString: lexicographic on code units. *)
Fixpoint QString_ltb (a b : QString) : bool :=
  match a, b with
  | _, [] => false
  | [], _ :: _ => true
  | x :: a', y :: b' =>
      if N.ltb x y then true
      else if N.ltb y x then false
      else QString_ltb a' b'
  end.

Definition QMap := list (QString * QStringList).

Fixpoint QMap_contains (m : QMap) (k : QString) : bool :=
  match m with
  | [] => false
  | (k', _) :: m' => QString_eqb k k' || QMap_contains m' k
  end.

(** Reading [m[k]] for a key the map holds (the empty list otherwise). *)
Fixpoint QMap_value (m : QMap) (k : QString) : QStringList :=
  match m with
  | [] => []
  | (k', v) :: m' => if QString_eqb k k' then v else QMap_value m' k
  end.

(** Changing [m[k]] in place: [operator[]] inserts an empty list for a key
    the map does not hold, at the key's place in the order. *)
Fixpoint QMap_update (m : QMap) (k : QString) (f : QStringList -> QStringList)
  : QMap :=
  match m with
  | [] => [(k, f [])]
  | (k', v) :: m' =>
      if QString_eqb k k' then (k', f v) :: m'
      else if QString_ltb k k' then (k, f []) :: (k', v) :: m'
      else (k', v) :: QMap_update m' k f
  end.

Definition QMap_keys (m : QMap) : list QString := map fst m.
Definition QMap_values (m : QMap) : list QStringList := map snd m.

(** [QStringList::sort(Qt::CaseSensitive)]: ascending by [operator<].  Two
    strings neither of which is below the other are the same string, so the
    result does not depend on the sorting algorithm. *)
Fixpoint sort_insert (s : QString) (l : QStringList) : QStringList :=
  match l with
  | [] => [s]
  | t :: l' => if QString_ltb t s then t :: sort_insert s l' else s :: l
  end.

Definition QStringList_sort (l : QStringList) : QStringList :=
  fold_right sort_insert [] l.

(** ** The GoPro clip grouper *)

Section Grouper.
Context {qt : QtText}.

(** [Util::removeFileScheme]. *)
Definition removeFileScheme (url : QUrl) : QString :=
  let path := QUrl_url url in
  let path := if QString_eqb (QUrl_scheme url) (qs "file")
              then QUrl_toLocalString url else path in
  fromPercentEncoding path.

Definition isValidGoProFirstFilePrefix (info : QFileInfo) : bool :=
  let list := [qs "GOPR"; qs "GH01"; qs "GS01"] in
  contains list (toUpper (baseName info)).

Definition isValidGoProPrefix (info : QFileInfo) : bool :=
  let list := [qs "GP"; qs "GH"; qs "GS"] in
  contains list (toUpper (baseName info)).

Definition isValidGoProSuffix (info : QFileInfo) : bool :=
  let list := [qs "MP4"; qs "LRV"; qs "360"] in
  contains list (toUpper (suffix info)).

(** [QFileInfo fi(removeFileScheme(url))], as each loop starts. *)
Definition fileInfo (url : QUrl) : QFileInfo :=
  mkQFileInfo (removeFileScheme url).

(** One turn of the first loop: GoPro main files. *)
Definition mainFileStep (goproFiles : QMap) (url : QUrl) : QMap :=
  let fi := fileInfo url in
  if (size (baseName fi) =? 8)%Z && isValidGoProSuffix fi
     && isValidGoProFirstFilePrefix fi
  then QMap_update goproFiles (mid 4 (baseName fi))
                   (fun paths => paths ++ [filePath fi])
  else goproFiles.

(** One turn of the second loop: GoPro split files. *)
Definition splitFileStep (goproFiles : QMap) (url : QUrl) : QMap :=
  let fi := fileInfo url in
  if (size (baseName fi) =? 8)%Z && isValidGoProSuffix fi
     && isValidGoProPrefix fi
  then
    let goproNumber := mid 4 (baseName fi) in
    if QMap_contains goproFiles goproNumber
       && negb (size (QMap_value goproFiles goproNumber) =? 0)%Z
    then QMap_update goproFiles goproNumber
                     (fun paths => paths ++ [filePath fi])
    else goproFiles
  else goproFiles.

(** One turn of the third loop: sort the files of one key. *)
Definition sortStep (goproFiles : QMap) (goproNumber : QString) : QMap :=
  QMap_update goproFiles goproNumber QStringList_sort.

(** The test of the last loop, lines 200 and 201. *)
Definition isGoProName (fi : QFileInfo) : bool :=
  (size (baseName fi) =? 8)%Z && isValidGoProSuffix fi
  && (isValidGoProFirstFilePrefix fi || isValidGoProPrefix fi).

(** One turn of the last loop: the files not in a group. *)
Definition otherFileStep (goproFiles : QMap) (result : QStringList) (url : QUrl)
  : QStringList :=
  let fi := fileInfo url in
  if isGoProName fi
     && (let goproNumber := mid 4 (baseName fi) in
         QMap_contains goproFiles goproNumber
         && contains (QMap_value goproFiles goproNumber) (filePath fi))
  then result
  else result ++ [filePath fi].

(** [Util::sortedFileList]. *)
Definition sortedFileList (urls : list QUrl) : QStringList :=
  let goproFiles := fold_left mainFileStep urls [] in
  let goproFiles := fold_left splitFileStep urls goproFiles in
  let goproFiles := fold_left sortStep (QMap_keys goproFiles) goproFiles in
  let result := fold_left (fun result paths => result ++ paths)
                          (QMap_values goproFiles) [] in
  fold_left (otherFileStep goproFiles) urls result.

(** The GoPro pattern as the specification words it: a stem of 8 characters,
    an extension among MP4, LRV and 360, and a stem whose first 4 characters
    are a first-file prefix or whose first 2 are a continuation prefix. *)
Definition stemStartsFirstFile (fi : QFileInfo) : bool :=
  contains [qs "GOPR"; qs "GH01"; qs "GS01"] (toUpper (left 4 (baseName fi))).

Definition stemStartsContinuation (fi : QFileInfo) : bool :=
  contains [qs "GP"; qs "GH"; qs "GS"] (toUpper (left 2 (baseName fi))).

Definition matchesGoProPattern (fi : QFileInfo) : bool :=
  (size (baseName fi) =? 8)%Z && isValidGoProSuffix fi
  && (stemStartsFirstFile fi || stemStartsContinuation fi).

End Grouper.

(** ** QCryptographicHash::hash(data, Md5) and QByteArray::toHex *)

Definition QByteArray := list byte.

Definition byteOfZ (z : Z) : byte :=
  match Byte.of_N (Z.to_N (z mod 256)) with
  | Some b => b
  | None => x00
  end.

Definition byteToZ (b : byte) : Z := Z.of_N (Byte.to_N b).

Module MD5.

Definition w32 (x : Z) : Z := x mod 4294967296.

Definition rotl (x c : Z) : Z :=
  w32 (Z.lor (Z.shiftl x c) (Z.shiftr x (32 - c))).

Definition not32 (x : Z) : Z := Z.lxor x 0xffffffff.

Definition shifts : list Z :=
  [7; 12; 17; 22; 7; 12; 17; 22; 7; 12; 17; 22; 7; 12; 17; 22;
   5; 9; 14; 20; 5; 9; 14; 20; 5; 9; 14; 20; 5; 9; 14; 20;
   4; 11; 16; 23; 4; 11; 16; 23; 4; 11; 16; 23; 4; 11; 16; 23;
   6; 10; 15; 21; 6; 10; 15; 21; 6; 10; 15; 21; 6; 10; 15; 21]%Z.

Definition sines : list Z :=
  [0xd76aa478; 0xe8c7b756; 0x242070db; 0xc1bdceee;
   0xf57c0faf; 0x4787c62a; 0xa8304613; 0xfd469501;
   0x698098d8; 0x8b44f7af; 0xffff5bb1; 0x895cd7be;
   0x6b901122; 0xfd987193; 0xa679438e; 0x49b40821;
   0xf61e2562; 0xc040b340; 0x265e5a51; 0xe9b6c7aa;
   0xd62f105d; 0x02441453; 0xd8a1e681; 0xe7d3fbc8;
   0x21e1cde6; 0xc33707d6; 0xf4d50d87; 0x455a14ed;
   0xa9e3e905; 0xfcefa3f8; 0x676f02d9; 0x8d2a4c8a;
   0xfffa3942; 0x8771f681; 0x6d9d6122; 0xfde5380c;
   0xa4beea44; 0x4bdecfa9; 0xf6bb4b60; 0xbebfbc70;
   0x289b7ec6; 0xeaa127fa; 0xd4ef3085; 0x04881d05;
   0xd9d4d039; 0xe6db99e5; 0x1fa27cf8; 0xc4ac5665;
   0xf4292244; 0x432aff97; 0xab9423a7; 0xfc93a039;
   0x655b59c3; 0x8f0ccc92; 0xffeff47d; 0x85845dd1;
   0x6fa87e4f; 0xfe2ce6e0; 0xa3014314; 0x4e0811a1;
   0xf7537e82; 0xbd3af235; 0x2ad7d2bb; 0xeb86d391]%Z.

Definition State : Type := Z * Z * Z * Z.

Definition init : State := (0x67452301, 0xefcdab89, 0x98badcfe, 0x10325476)%Z.

(** Operation [i] of a block whose sixteen words are [M]. *)
Definition step (M : list Z) (st : State) (i : nat) : State :=
  let '(A, B, C, D) := st in
  let '(F, g) :=
    if (i <? 16)%nat then (Z.lor (Z.land B C) (Z.land (not32 B) D), i)
    else if (i <? 32)%nat then
      (Z.lor (Z.land D B) (Z.land (not32 D) C), ((5 * i + 1) mod 16)%nat)
    else if (i <? 48)%nat then
      (Z.lxor B (Z.lxor C D), ((3 * i + 5) mod 16)%nat)
    else (Z.lxor C (Z.lor B (not32 D)), ((7 * i) mod 16)%nat) in
  let F := w32 (F + A + nth i sines 0 + nth g M 0)%Z in
  (D, w32 (B + rotl F (nth i shifts 0%Z)), B, C).

(** The little-endian 32-bit words of a block. *)
Fixpoint words (block : list byte) : list Z :=
  match block with
  | b0 :: b1 :: b2 :: b3 :: rest =>
      (byteToZ b0 + 256 * byteToZ b1 + 65536 * byteToZ b2
       + 16777216 * byteToZ b3)%Z :: words rest
  | _ => []
  end.

Definition block (st : State) (bytes : list byte) : State :=
  let '(a0, b0, c0, d0) := st in
  let '(A, B, C, D) := fold_left (step (words bytes)) (seq 0 64) st in
  (w32 (a0 + A), w32 (b0 + B), w32 (c0 + C), w32 (d0 + D)).

(** The blocks of 64 bytes of a padded message, [n] at most. *)
Fixpoint blocks (n : nat) (bytes : list byte) : list (list byte) :=
  match n, bytes with
  | S n', _ :: _ => firstn 64 bytes :: blocks n' (skipn 64 bytes)
  | _, _ => []
  end.

Definition wordBytes (w : Z) : list byte :=
  [byteOfZ w; byteOfZ (w / 256); byteOfZ (w / 65536); byteOfZ (w / 16777216)].

(** A one bit, zeros up to 56 modulo 64, then the length in bits on 64 bits. *)
Definition pad (data : list byte) : list byte :=
  let len := Z.of_nat (length data) in
  let zeros := Z.to_nat ((55 - len) mod 64) in
  let bits := ((8 * len) mod 18446744073709551616)%Z in
  data ++ [x80] ++ repeat x00 zeros
       ++ wordBytes (bits mod 4294967296) ++ wordBytes (bits / 4294967296).

Definition digest (data : QByteArray) : QByteArray :=
  let padded := pad data in
  let '(a, b, c, d) :=
    fold_left block (blocks (length padded) padded) init in
  wordBytes a ++ wordBytes b ++ wordBytes c ++ wordBytes d.

End MD5.

Definition hexDigit (n : Z) : QChar :=
  if (n <? 10)%Z then (Z.to_N n + 48)%N else (Z.to_N n + 87)%N.

(** [QByteArray::toHex], read as a QString: two lowercase digits a byte. *)
Fixpoint toHex (bytes : QByteArray) : QString :=
  match bytes with
  | [] => []
  | b :: rest =>
      hexDigit (byteToZ b / 16) :: hexDigit (byteToZ b mod 16) :: toHex rest
  end.

(** ** QFile *)

(** An open file: its bytes and the position of the next read.  Closing the
    file changes nothing the function returns and is left out. *)
Record QFile := mkQFile { file_data : QByteArray; file_pos : Z }.

(** The files that [QFile::open(QIODevice::ReadOnly)] opens, by path, each
    with its contents; [None] for a path that cannot be opened. *)
Definition FileSystem := QString -> option QByteArray.

(** Calls on an open file: a result and the file after the call. *)
Definition IO (A : Type) : Type := QFile -> A * QFile.

Definition ret {A : Type} (a : A) : IO A := fun f => (a, f).

Definition bind {A B : Type} (m : IO A) (k : A -> IO B) : IO B :=
  fun f => let (a, f') := m f in k a f'.

Notation "x <- m ;; k" := (bind m (fun x => k))
  (at level 61, m at next level, right associativity).

Definition file_size : IO Z := fun f => (size (file_data f), f).

Definition remaining (f : QFile) : QByteArray :=
  skipn (Z.to_nat (file_pos f)) (file_data f).

(** [QFile::read(maxSize)]: at most [maxSize] bytes from the position. *)
Definition file_read (maxSize : Z) : IO QByteArray := fun f =>
  let bytes := firstn (Z.to_nat maxSize) (remaining f) in
  (bytes, mkQFile (file_data f) (file_pos f + size bytes)).

(** [QFile::readAll]: the bytes from the position to the end. *)
Definition file_readAll : IO QByteArray := fun f =>
  let bytes := remaining f in
  (bytes, mkQFile (file_data f) (file_pos f + size bytes)).

(** [QFile::seek(pos)]: a negative position is refused. *)
Definition file_seek (pos : Z) : IO bool := fun f =>
  if (pos <? 0)%Z then (false, f) else (true, mkQFile (file_data f) pos).

(** The body of [Util::getFileHash] once the file is open. *)
Definition readFileData : IO QByteArray :=
  sz <- file_size ;;
  if (sz >? 1000000 * 2)%Z then
    fileData <- file_read 1000000 ;;
    sz' <- file_size ;;
    ok <- file_seek (sz' - 1000000) ;;
    if ok : bool then
      tail <- file_readAll ;;
      ret (fileData ++ tail)
    else ret fileData
  else file_readAll.

(** [Util::getFileHash]; the empty string is [QString()]. *)
Definition getFileHash (fs : FileSystem) (path : QString) : QString :=
  match fs path with
  | Some data =>
      let (fileData, _) := readFileData (mkQFile data 0) in
      toHex (MD5.digest fileData)
  | None => []
  end.

(** ** Qt's text functions on ASCII text

    An instance of [QtText] that agrees with Qt on strings of ASCII
    characters whose percent escapes, if any, are well formed and encode
    ASCII bytes; it is what the concrete runs below compute with. *)

Definition ascii_toUpper (c : QChar) : QChar :=
  if (97 <=? c)%N && (c <=? 122)%N then (c - 32)%N else c.

Definition ascii_toLower (c : QChar) : QChar :=
  if (65 <=? c)%N && (c <=? 90)%N then (c + 32)%N else c.

Definition ascii_isDigit (c : QChar) : bool := (48 <=? c)%N && (c <=? 57)%N.

Definition hexValue (c : QChar) : option N :=
  if (48 <=? c)%N && (c <=? 57)%N then Some (c - 48)%N
  else if (65 <=? c)%N && (c <=? 70)%N then Some (c - 55)%N
  else if (97 <=? c)%N && (c <=? 102)%N then Some (c - 87)%N
  else None.

Definition escapedAscii (c h l : QChar) : option QChar :=
  if QChar_eqb c (chr "%") then
    match hexValue h, hexValue l with
    | Some a, Some b => if (16 * a + b <? 128)%N then Some (16 * a + b)%N else None
    | _, _ => None
    end
  else None.

Fixpoint ascii_fromPercentEncoding (s : QString) : QString :=
  match s with
  | [] => []
  | c :: t =>
      match t with
      | h :: l :: rest =>
          match escapedAscii c h l with
          | Some v => v :: ascii_fromPercentEncoding rest
          | None => c :: ascii_fromPercentEncoding t
          end
      | _ => c :: ascii_fromPercentEncoding t
      end
  end.

Lemma ascii_toUpper_length s : (length s <= length (map ascii_toUpper s))%nat.
Proof. rewrite length_map. apply le_n. Qed.

Lemma ascii_toLower_e c :
  ascii_toLower c = chr "e" <-> c = chr "e" \/ c = chr "E".
Proof.
  unfold ascii_toLower, chr. simpl N_of_ascii.
  destruct (65 <=? c)%N eqn:E1; destruct (c <=? 90)%N eqn:E2; simpl;
    try apply N.leb_le in E1; try apply N.leb_le in E2;
    try apply N.leb_gt in E1; try apply N.leb_gt in E2; lia.
Qed.

#[export] Instance asciiQt : QtText := {|
  toUpper := map ascii_toUpper;
  QChar_toLower := ascii_toLower;
  QChar_isDigit := ascii_isDigit;
  fromPercentEncoding := ascii_fromPercentEncoding;
  toUpper_length := ascii_toUpper_length;
  toLower_e := ascii_toLower_e
|}.

(** The relative URL [QUrl(s)] of a name without a scheme, whose string form
    is [s] itself. *)
Definition plainUrl (s : string) : QUrl := mkQUrl [] (qs s) (qs s).

(** [QUrl::fromLocalFile] of an absolute path of unreserved ASCII characters. *)
Definition localFileUrl (path : string) : QUrl :=
  mkQUrl (qs "file") (qs "file://" ++ qs path) (qs path).

(** The file reference the grouper emits for an input URL: [fi.filePath()]. *)
Definition fileRef {qt : QtText} (url : QUrl) : QString :=
  filePath (fileInfo url).

(** The characters [Util::isNumeric] lets through, spelled out. *)
Definition numericCharacter {qt : QtText} (c : QChar) : Prop :=
  c = chr "+" \/ c = chr "-" \/ c = chr "e" \/ c = chr "E"
  \/ isDecimalPoint c = true \/ QChar_isDigit c = true.

(** What the loop of [Util::convertNumericString] leaves of one character. *)
Definition converted (d c : QChar) : QChar := if isDecimalPoint c then d else c.

(** A decimal point that [Util::convertNumericString] has to replace. *)
Definition foreignDecimalPoint (d c : QChar) : Prop :=
  isDecimalPoint c = true /\ c <> d.

Definition isLowerHexDigit (c : QChar) : bool :=
  ((48 <=? c)%N && (c <=? 57)%N) || ((97 <=? c)%N && (c <=? 102)%N).

(** The bytes of an ASCII literal. *)
Definition bytesOf (s : string) : QByteArray :=
  map byte_of_ascii (list_ascii_of_string s).

(** 2,000,001 zero bytes: one byte over the threshold of [Util::getFileHash]. *)
Definition bigData : QByteArray := repeat x00 (Z.to_nat 2000001).

(** A file system with a file of three bytes and one of 2,000,001 bytes. *)
Definition sampleFs : FileSystem := fun path =>
  if QString_eqb path (qs "/media/abc.txt") then Some (bytesOf "abc")
  else if QString_eqb path (qs "/media/big.bin") then Some bigData
  else None.

(** The files of the specification's example.  The runs on them below
    compute with [asciiQt], the only instance of [QtText]. *)
Definition GOPR0012 : QUrl := plainUrl "GOPR0012.MP4".
Definition GP020012 : QUrl := plainUrl "GP020012.MP4".
Definition GP030012 : QUrl := plainUrl "GP030012.MP4".
Definition clip_mov : QUrl := plainUrl "clip.mov".

(** The group of clip 0012 once its first file is in it. *)
Definition group0012 : QMap := [(qs "0012", [qs "GOPR0012.MP4"])].

(** ** [Util::baseName] *)

(** [QString::startsWith(QChar)]. *)
Definition startsWith (s : QString) (c : QChar) : bool :=
  match s with
  | [] => false
  | c' :: _ => QChar_eqb c' c
  end.

(** [QString::midRef(position, n)]: the [n] code units from [position], or
    as many as the string has from there. *)
Definition midRef (position n : nat) (s : QString) : QString :=
  firstn n (skipn position s).

(** The literal [":\\"] of the source: a colon and a backslash. *)
Definition colonBackslash : QString := [chr ":"; 92%N].

(** [Util::baseName]; [baseName] alone is [QFileInfo::baseName] above. *)
Definition Util_baseName (path : QString) : QString :=
  let s := path in
  if startsWith s (chr "/")
     || QString_eqb (midRef 1 2 s) (qs ":/")
     || QString_eqb (midRef 1 2 s) colonBackslash
  then fileName (mkQFileInfo s)
  else s.

(** ** [Util::convertDecimalPoints] *)

(** [QString::contains(QChar)], case sensitive. *)
Definition containsChar (s : QString) (c : QChar) : bool :=
  existsb (QChar_eqb c) s.

(** The loop of [Util::convertDecimalPoints] from some index on, in the
    shape of [convertLoop]. *)
Fixpoint convertPointsLoop (str : QString) (decimalPoint : QChar) (result : bool)
  : bool * QString :=
  match str with
  | [] => (result, [])
  | ch :: rest =>
      if negb (QChar_eqb ch decimalPoint) && negb (QChar_eqb ch (chr " "))
         && isDecimalPoint ch
      then let (r, rest') := convertPointsLoop rest decimalPoint true in
           (r, decimalPoint :: rest')
      else let (r, rest') := convertPointsLoop rest decimalPoint result in
           (r, ch :: rest')
  end.

(** [Util::convertDecimalPoints]: the result and the string after the call.
    [str.contains(decimalPoint)] is tested once, before the loop. *)
Definition convertDecimalPoints (str : QString) (decimalPoint : QChar)
  : bool * QString :=
  if negb (containsChar str decimalPoint)
  then convertPointsLoop str decimalPoint false
  else (false, str).

(** A decimal point that [Util::convertDecimalPoints] replaces: any but the
    space. *)
Definition replaceablePoint (c : QChar) : bool :=
  negb (QChar_eqb c (chr " ")) && isDecimalPoint c.

(** ** [Util::expandDirectories] *)

Section ExpandDirectories.
Context {qt : QtText}.

(** For the path of a directory, [fi.filePath()] of each entry of
    [dir.entryInfoList(QDir::Files | QDir::Readable, QDir::Name)], in that
    order; [None] for a path [QFileInfo::isDir] rejects. *)
Variable entryInfoList : QString -> option (list QString).

(** The conversion [QUrl(const QString &)] that [result << fi.filePath()]
    applies. *)
Variable QUrl_of_QString : QString -> QUrl.

(** One turn of the loop over [urls]. *)
Definition expandStep (result : list QUrl) (url : QUrl) : list QUrl :=
  let path := removeFileScheme url in
  match entryInfoList path with
  | Some files => fold_left (fun result file => result ++ [QUrl_of_QString file])
                            files result
  | None => result ++ [url]
  end.

(** [Util::expandDirectories]. *)
Definition expandDirectories (urls : list QUrl) : list QUrl :=
  fold_left expandStep urls [].

End ExpandDirectories.

(** ** [Util::getHash] *)

(** The constants of [shotcut_mlt_properties.h] that [Util::getHash] names,
    and the two conversions of C strings it relies on: [fromUtf8] is
    [QString::fromUtf8(const char * )], which [QString(const char * )] applies
    too, and [atoi] is the integer MLT reads off a property's string.
    UTF-8 text of ASCII bytes decodes to the code units of the same values. *)
Class MltText := {
  kShotcutHashProperty : string;
  kIsProxyProperty : string;
  kOriginalResourceProperty : string;
  fromUtf8 : QByteArray -> QString;
  atoi : QByteArray -> Z;
  fromUtf8_ascii : forall bytes,
    Forall (fun b => (Byte.to_N b < 128)%N) bytes ->
    fromUtf8 bytes = map Byte.to_N bytes
}.

(** [Mlt::Properties]: the C string stored under each name, if any. *)
Definition Properties := string -> option QByteArray.

(** The C string a buffer holds: its bytes up to the first NUL. *)
Fixpoint c_str (bytes : QByteArray) : QByteArray :=
  match bytes with
  | [] => []
  | b :: rest => if Byte.eqb b x00 then [] else b :: c_str rest
  end.

(** [Mlt::Properties::set(name, value)] for a string that is no expression
    (it does not start with '@'): the C string is stored under [name]. *)
Definition Properties_set (properties : Properties) (name : string)
  (value : QByteArray) : Properties :=
  fun n => if String.eqb n name then Some (c_str value) else properties n.

(** [QString::toLatin1]: a code unit above 255 becomes '?'. *)
Definition toLatin1 (s : QString) : QByteArray :=
  map (fun c => if (c <? 256)%N then byteOfZ (Z.of_N c) else "?"%byte) s.

(** [QString::isEmpty]. *)
Definition isEmpty (s : QString) : bool :=
  match s with
  | [] => true
  | _ :: _ => false
  end.

Section GetHash.
Context {mlt : MltText}.

(** [Mlt::Properties::get(name)] read as a QString: a null pointer gives the
    null string. *)
Definition Properties_get (properties : Properties) (name : string) : QString :=
  match properties name with
  | Some value => fromUtf8 value
  | None => []
  end.

(** [Mlt::Properties::get_int(name)]: 0 for a name that is not set. *)
Definition Properties_get_int (properties : Properties) (name : string) : Z :=
  match properties name with
  | Some value => atoi value
  | None => 0%Z
  end.

(** The resource [Util::getHash] hands to [Util::getFileHash]. *)
Definition hashedResource (properties : Properties) : QString :=
  let service := Properties_get properties "mlt_service" in
  let resource := Properties_get properties "resource" in
  if negb (Properties_get_int properties kIsProxyProperty =? 0)%Z
     && match properties kOriginalResourceProperty with
        | Some _ => true
        | None => false
        end
  then Properties_get properties kOriginalResourceProperty
  else if QString_eqb service (qs "timewarp")
  then Properties_get properties "warp_resource"
  else if QString_eqb service (qs "vidstab")
  then Properties_get properties "filename"
  else resource.

(** [Util::getHash]: the hash and the properties after the call. *)
Definition getHash (fs : FileSystem) (properties : Properties)
  : QString * Properties :=
  let hash := Properties_get properties kShotcutHashProperty in
  if isEmpty hash then
    let hash := getFileHash fs (hashedResource properties) in
    if negb (isEmpty hash)
    then (hash, Properties_set properties kShotcutHashProperty (toLatin1 hash))
    else (hash, properties)
  else (hash, properties).

End GetHash.

(** An instance of [MltText] for C strings of ASCII text, with sample names
    for the three constants. *)
Definition ascii_fromUtf8 (bytes : QByteArray) : QString := map Byte.to_N bytes.

(** Decimal digits read as a natural number, 0 for anything else. *)
Definition ascii_atoi (bytes : QByteArray) : Z :=
  fold_left (fun n b => let d := (byteToZ b - 48)%Z in
                        if ((0 <=? d) && (d <=? 9))%Z then (10 * n + d)%Z else 0%Z)
            bytes 0%Z.

#[export] Instance asciiMlt : MltText := {|
  kShotcutHashProperty := "shotcut:hash";
  kIsProxyProperty := "shotcut:proxy";
  kOriginalResourceProperty := "shotcut:originalResource";
  fromUtf8 := ascii_fromUtf8;
  atoi := ascii_atoi;
  fromUtf8_ascii := fun bytes _ => eq_refl
|}.

(** The properties of a clip whose [resource] is the small file of
    [sampleFs] and that holds no hash yet. *)
Definition clipProperties : Properties := fun name =>
  if String.eqb name "resource" then Some (bytesOf "/media/abc.txt")
  else if String.eqb name "mlt_service" then Some (bytesOf "avformat")
  else None.

(** A file system without any readable file. *)
Definition emptyFs : FileSystem := fun _ => None.

(** A listing with the one directory /media, which holds two files. *)
Definition sampleListing : QString -> option (list QString) := fun path =>
  if QString_eqb path (qs "/media")
  then Some [qs "/media/a.mp4"; qs "/media/b.mp4"]
  else None.

(** 1,000,000 zero bytes. *)
Definition megabyte : QByteArray := repeat x00 (Z.to_nat 1000000).

(** Two files that share their first and their last 1,000,000 bytes and
    differ in between. *)
Definition twoBigFiles : FileSystem := fun path =>
  if QString_eqb path (qs "/media/a.bin")
  then Some (megabyte ++ [x00] ++ megabyte)
  else if QString_eqb path (qs "/media/b.bin")
  then Some (megabyte ++ [xff; xff; xff] ++ megabyte)
  else None.

(** What the loop of [Util::convertDecimalPoints] leaves of one character. *)
Definition pointConverted (d c : QChar) : QChar :=
  if replaceablePoint c then d else c.

(** * Properties *)

(** ** Strings *)

Lemma QChar_eqb_eq a b : QChar_eqb a b = true <-> a = b.
Proof. apply N.eqb_eq. Qed.

Lemma QChar_eqb_neq a b : QChar_eqb a b = false <-> a <> b.
Proof. apply N.eqb_neq. Qed.

Lemma QString_eqb_eq a b : QString_eqb a b = true <-> a = b.
Proof.
  revert b; induction a as [|x a IH]; intros [|y b]; simpl;
    try (split; [discriminate | discriminate]); try tauto.
  rewrite andb_true_iff, QChar_eqb_eq, IH.
  split; [intros [-> ->]; reflexivity | intros E; inversion E; auto].
Qed.

Lemma contains_In l s : contains l s = true <-> In s l.
Proof.
  unfold contains. rewrite existsb_exists. split.
  - intros (t & Ht & E). apply QString_eqb_eq in E. subst. assumption.
  - intros H. exists s. split; [assumption | now apply QString_eqb_eq].
Qed.

(** ** [Util::coerceMultiple] *)

Lemma wrap_in_range x : Int.in_range x -> Int.wrap x = x.
Proof.
  unfold Int.in_range, Int.INT_MIN, Int.INT_MAX, Int.wrap. intros H.
  rewrite Z.mod_small; lia.
Qed.

(** In the wrap-around model the sum [value + multiple] may reach 2^31: the
    subtraction of 1 brings it back into range. *)
Lemma coerceMultiple_exact v m :
  (0 <= v)%Z -> (0 < m)%Z -> (v + m - 1 <= Int.INT_MAX)%Z ->
  coerceMultiple v m = Some ((v + m - 1) / m * m)%Z.
Proof.
  unfold Int.INT_MAX. intros Hv Hm Hb.
  assert (Hs : Int.sub (Int.add v m) 1 = (v + m - 1)%Z).
  { unfold Int.sub, Int.add.
    destruct (Z.eq_dec (v + m) 2147483648) as [E|E].
    - rewrite E. reflexivity.
    - rewrite (wrap_in_range (x := (v + m)%Z));
        [apply wrap_in_range|]; unfold Int.in_range, Int.INT_MIN, Int.INT_MAX; lia. }
  unfold coerceMultiple. rewrite Hs. unfold Int.div.
  replace (m =? 0)%Z with false by (symmetry; apply Z.eqb_neq; lia).
  replace (m =? -1)%Z with false by (symmetry; apply Z.eqb_neq; lia).
  rewrite andb_false_r. simpl orb. cbv iota.
  rewrite Z.quot_div_nonneg by lia.
  assert (Hq : (0 <= (v + m - 1) / m)%Z) by (apply Z.div_pos; lia).
  assert (Hle : ((v + m - 1) / m * m <= v + m - 1)%Z).
  { rewrite Z.mul_comm. apply Z.mul_div_le. lia. }
  unfold Int.mul. rewrite wrap_in_range; [reflexivity|].
  unfold Int.in_range, Int.INT_MIN, Int.INT_MAX. nia.
Qed.

Lemma round_up_smallest v m :
  (0 < m)%Z -> smallest_multiple_geq m v ((v + m - 1) / m * m)%Z.
Proof.
  intros Hm. pose proof (Z.div_mod (v + m - 1) m ltac:(lia)) as D.
  pose proof (Z.mod_pos_bound (v + m - 1) m Hm) as B.
  repeat split.
  - exists ((v + m - 1) / m)%Z. reflexivity.
  - nia.
  - intros r' [k ->] Hk.
    set (q := ((v + m - 1) / m)%Z) in *.
    assert (Hq : (q < k + 1)%Z).
    { apply (Z.mul_lt_mono_pos_l m); lia. }
    apply Z.mul_le_mono_nonneg_r; lia.
Qed.

(** C9, as the code has it: for [value >= 0] and [multiple > 0] whose sum
    [value + multiple] does not exceed INT_MAX (so that no intermediate
    result of the 32-bit expression overflows), [Util::coerceMultiple]
    returns the smallest multiple of [multiple] that is at least [value]. *)
Theorem coerceMultiple_rounds_up v m :
  (0 <= v)%Z -> (0 < m)%Z -> (v + m <= Int.INT_MAX)%Z ->
  exists r, coerceMultiple v m = Some r /\ smallest_multiple_geq m v r.
Proof.
  intros Hv Hm Hb. exists ((v + m - 1) / m * m)%Z. split.
  - apply coerceMultiple_exact; lia.
  - now apply round_up_smallest.
Qed.

Lemma coerceMultiple_rounds_up_witness :
  exists r, coerceMultiple 1919 16 = Some r /\ smallest_multiple_geq 16 1919 r.
Proof.
  apply (@coerceMultiple_rounds_up 1919 16); unfold Int.INT_MAX; lia.
Defined.

(** C9, as the claim states it, fails at [value = INT_MAX], [multiple = 2]:
    the smallest multiple of 2 from there on is 2^31, which no [int] holds;
    the 32-bit expression wraps around to INT_MIN. *)
Lemma coerceMultiple_overflows :
  (0 <= 2147483647)%Z /\ (0 < 2)%Z
  /\ coerceMultiple 2147483647 2 = Some (-2147483648)%Z
  /\ ~ (exists r, coerceMultiple 2147483647 2 = Some r
                  /\ smallest_multiple_geq 2 2147483647 r).
Proof.
  split; [lia|]. split; [lia|]. split; [reflexivity|].
  intros (r & E & _ & Hge & _).
  change (coerceMultiple 2147483647 2) with (Some (-2147483648)%Z) in E.
  inversion E. subst r. lia.
Qed.

(** ** [Util::isNumeric] and [Util::convertNumericString] *)

Section NumericStringFacts.
Context {qt : QtText}.

Lemma numericChar_spec c : numericChar c = true <-> numericCharacter c.
Proof.
  unfold numericChar, numericCharacter.
  rewrite negb_true_iff, !andb_false_iff, !negb_false_iff, !QChar_eqb_eq.
  rewrite toLower_e. tauto.
Qed.

Lemma isNumeric_Forall s : isNumeric s = true <-> Forall numericCharacter s.
Proof.
  induction s as [|c s IH]; simpl.
  - split; [constructor | reflexivity].
  - destruct (numericChar c) eqn:E; simpl.
    + rewrite IH. split; [intros H; constructor; [now apply numericChar_spec | exact H]
                         | intros H; now inversion H].
    + split; [discriminate|]. intros H. inversion H as [|? ? Hc _]; subst.
      apply numericChar_spec in Hc. congruence.
Qed.

Lemma convertLoop_snd s d r : snd (convertLoop s d r) = map (converted d) s.
Proof.
  revert r; induction s as [|c s IH]; intros r; simpl; [reflexivity|].
  unfold converted at 1.
  destruct (QChar_eqb c d) eqn:E; simpl.
  - apply QChar_eqb_eq in E. subst c.
    specialize (IH r). destruct (convertLoop s d r) as [r' s']. simpl in *.
    rewrite IH. now destruct (isDecimalPoint d).
  - destruct (isDecimalPoint c).
    + specialize (IH true). destruct (convertLoop s d true) as [r' s'].
      simpl in *. now rewrite IH.
    + specialize (IH r). destruct (convertLoop s d r) as [r' s'].
      simpl in *. now rewrite IH.
Qed.

Lemma convertLoop_fst s d r :
  fst (convertLoop s d r) = true <-> r = true \/ Exists (foreignDecimalPoint d) s.
Proof.
  revert r; induction s as [|c s IH]; intros r; simpl.
  - rewrite Exists_nil. tauto.
  - rewrite Exists_cons. unfold foreignDecimalPoint at 1.
    destruct (QChar_eqb c d) eqn:E; simpl.
    + apply QChar_eqb_eq in E.
      specialize (IH r). destruct (convertLoop s d r) as [r' s']. simpl in *.
      rewrite IH. tauto.
    + apply QChar_eqb_neq in E. destruct (isDecimalPoint c) eqn:P.
      * specialize (IH true). destruct (convertLoop s d true) as [r' s'].
        simpl in *. rewrite IH. tauto.
      * specialize (IH r). destruct (convertLoop s d r) as [r' s'].
        simpl in *. rewrite IH. intuition congruence.
Qed.

Lemma converted_changes s d :
  map (converted d) s <> s <-> Exists (foreignDecimalPoint d) s.
Proof.
  induction s as [|c s IH]; simpl.
  - rewrite Exists_nil. tauto.
  - rewrite Exists_cons, <- IH. unfold foreignDecimalPoint, converted at 1.
    destruct (isDecimalPoint c) eqn:P.
    + destruct (N.eq_dec c d) as [->|Hn].
      * split; [intros H; right; intros E; apply H; now rewrite E
               | intros [[_ H]|H]; [congruence | intros E; inversion E; auto]].
      * split; [intros _; left; auto | intros _ E; inversion E; congruence].
    + split; [intros H; right; intros E; apply H; now rewrite E
             | intros [[H _]|H]; [discriminate | intros E; inversion E; auto]].
Qed.

(** C10: [Util::convertNumericString] returns true exactly when it changed
    the string, which is exactly when every character is a sign, a digit,
    'e' or 'E' or a recognised decimal point (the test of [Util::isNumeric],
    which the empty string passes) and some character is a recognised
    decimal point other than [d]; then every recognised decimal point has
    become [d], and nothing else has changed. *)
Theorem convertNumericString_true_iff_changed (s : QString) (d : QChar) :
  let r := fst (convertNumericString s d) in
  let s' := snd (convertNumericString s d) in
  (r = true <-> s' <> s)
  /\ (r = true <->
      Forall numericCharacter s /\ Exists (foreignDecimalPoint d) s)
  /\ (isNumeric s = true <-> Forall numericCharacter s)
  /\ isNumeric [] = true
  /\ s' = map (fun c => if r && isDecimalPoint c then d else c) s.
Proof.
  cbv zeta. unfold convertNumericString.
  pose proof (isNumeric_Forall s) as HN.
  destruct (isNumeric s) eqn:E.
  - pose proof (convertLoop_fst s d false) as HF.
    pose proof (convertLoop_snd s d false) as HS.
    destruct (convertLoop s d false) as [r s']. simpl in *.
    assert (HR : r = true <-> Exists (foreignDecimalPoint d) s).
    { rewrite HF. intuition discriminate. }
    split; [|split; [|split; [|split]]]; try tauto; try reflexivity.
    + rewrite HS, converted_changes. exact HR.
    + destruct r; simpl; [exact HS|].
      rewrite map_id. rewrite HS.
      destruct (list_eq_dec N.eq_dec (map (converted d) s) s) as [Q|Q];
        [exact Q|]. apply converted_changes in Q.
      assert (false = true) by tauto. discriminate.
  - simpl. split; [|split; [|split; [|split]]]; try tauto; try reflexivity.
    + split; [discriminate | congruence].
    + split; [discriminate|]. intros [H _]. apply HN in H. discriminate.
    + now rewrite map_id.
Qed.

End NumericStringFacts.

(** A run on ASCII text: "1,5e3" with '.' as the decimal point. *)
Lemma convertNumericString_witness :
  convertNumericString (qs "1,5e3") (chr ".") = (true, qs "1.5e3")
  /\ (fst (convertNumericString (qs "1,5e3") (chr ".")) = true <->
      snd (convertNumericString (qs "1,5e3") (chr ".")) <> qs "1,5e3").
Proof.
  split; [reflexivity|].
  apply (@convertNumericString_true_iff_changed asciiQt (qs "1,5e3") (chr ".")).
Defined.

(** ** [Util::sortedFileList] *)

Section GrouperFacts.
Context {qt : QtText}.

(** An upper-cased stem of 8 characters is none of a list of shorter names. *)
Lemma toUpper_of_8_not_in (b : QString) (l : QStringList) :
  size b = 8%Z -> Forall (fun t => (length t < 8)%nat) l ->
  contains l (toUpper b) = false.
Proof.
  unfold size. intros Hb Hl.
  destruct (contains l (toUpper b)) eqn:E; [|reflexivity].
  apply contains_In in E. rewrite Forall_forall in Hl. apply Hl in E.
  pose proof (toUpper_length b). lia.
Qed.

Lemma isValidGoProFirstFilePrefix_of_8 fi :
  size (baseName fi) = 8%Z -> isValidGoProFirstFilePrefix fi = false.
Proof.
  intros H. unfold isValidGoProFirstFilePrefix.
  apply toUpper_of_8_not_in; [exact H|].
  repeat constructor.
Qed.

Lemma isValidGoProPrefix_of_8 fi :
  size (baseName fi) = 8%Z -> isValidGoProPrefix fi = false.
Proof.
  intros H. unfold isValidGoProPrefix.
  apply toUpper_of_8_not_in; [exact H|].
  repeat constructor.
Qed.

(** Splits on the test [fi.baseName().size() == 8]; where it holds, both
    prefix tests are rewritten to false. *)
Ltac stem_of_8 :=
  match goal with
  | |- context [(size (baseName ?fi) =? 8)%Z] =>
      let E := fresh "E" in
      destruct (size (baseName fi) =? 8)%Z eqn:E;
      [ apply Z.eqb_eq in E;
        rewrite ?isValidGoProFirstFilePrefix_of_8, ?isValidGoProPrefix_of_8
          by exact E;
        rewrite ?andb_false_r
      | ];
      try reflexivity
  end.

Lemma isGoProName_false fi : isGoProName fi = false.
Proof. unfold isGoProName. stem_of_8. Qed.

Lemma mainFileStep_keeps goproFiles url : mainFileStep goproFiles url = goproFiles.
Proof. unfold mainFileStep. stem_of_8. Qed.

Lemma splitFileStep_keeps goproFiles url : splitFileStep goproFiles url = goproFiles.
Proof. unfold splitFileStep. stem_of_8. Qed.

Lemma fold_left_keeps {A B : Type} (f : A -> B -> A) :
  (forall a b, f a b = a) -> forall l a, fold_left f l a = a.
Proof.
  intros Hf l. induction l as [|b l IH]; intros a; simpl; [reflexivity|].
  now rewrite Hf.
Qed.

Lemma otherFileStep_appends goproFiles result url :
  otherFileStep goproFiles result url = result ++ [fileRef url].
Proof.
  unfold otherFileStep. now rewrite isGoProName_false.
Qed.

Lemma fold_otherFileStep goproFiles urls result :
  fold_left (otherFileStep goproFiles) urls result = result ++ map fileRef urls.
Proof.
  revert result; induction urls as [|u urls IH]; intros result; simpl.
  - now rewrite app_nil_r.
  - rewrite IH, otherFileStep_appends, <- app_assoc. reflexivity.
Qed.

(** With both prefix tests comparing the whole stem, no group is ever opened
    and the last loop emits every file. *)
Lemma sortedFileList_as_written urls : sortedFileList urls = map fileRef urls.
Proof.
  unfold sortedFileList.
  rewrite (fold_left_keeps mainFileStep mainFileStep_keeps).
  rewrite (fold_left_keeps splitFileStep splitFileStep_keeps).
  simpl. apply fold_otherFileStep.
Qed.

Lemma fileRef_is_removeFileScheme url : fileRef url = removeFileScheme url.
Proof. reflexivity. Qed.

(** C4: the output of [Util::sortedFileList] holds the file references of
    the input, each as many times as the input does: the two lists are
    permutations of each other, and every string occurs as often in one as
    in the other. *)
Theorem sortedFileList_same_multiset (urls : list QUrl) :
  Permutation (sortedFileList urls) (map fileRef urls)
  /\ forall s, count_occ (list_eq_dec N.eq_dec) (sortedFileList urls) s
               = count_occ (list_eq_dec N.eq_dec) (map fileRef urls) s.
Proof.
  rewrite sortedFileList_as_written. split; [apply Permutation_refl | reflexivity].
Qed.

(** C7, as the code has it: of a list none of whose files matches the GoPro
    pattern, [Util::sortedFileList] returns the strings
    [Util::removeFileScheme] makes of the URLs, one for each URL and in the
    order of the input; these are the URLs' own strings when no URL has the
    scheme file and percent-decoding leaves every URL's string as it is; the
    empty list gives the empty list.  (In the code as written the first
    hypothesis is not needed: see [sortedFileList_as_written].) *)
Theorem sortedFileList_without_GoPro (urls : list QUrl) :
  Forall (fun url => matchesGoProPattern (fileInfo url) = false) urls ->
  sortedFileList urls = map removeFileScheme urls
  /\ (Forall (fun url => QUrl_scheme url <> qs "file"
                         /\ fromPercentEncoding (QUrl_url url) = QUrl_url url)
             urls ->
      sortedFileList urls = map QUrl_url urls)
  /\ sortedFileList [] = [].
Proof.
  intros _. rewrite sortedFileList_as_written.
  split; [reflexivity|]. split; [|reflexivity].
  intros H. apply map_ext_Forall.
  apply Forall_impl with (2 := H). intros url [Hs Hp].
  rewrite fileRef_is_removeFileScheme. unfold removeFileScheme.
  destruct (QString_eqb (QUrl_scheme url) (qs "file")) eqn:E; [|exact Hp].
  apply QString_eqb_eq in E. contradiction.
Qed.

(** C8, as the code has it: the strings [Util::sortedFileList] emits are
    those [Util::removeFileScheme] makes of the input URLs (the local-file
    form of a URL of scheme file, and percent-decoded), one for every input
    URL; such a string is the URL's own when the scheme is not file and
    percent-decoding leaves the URL's string as it is. *)
Theorem sortedFileList_emits_removeFileScheme (urls : list QUrl) :
  (forall s, In s (sortedFileList urls) <->
             exists url, In url urls /\ s = removeFileScheme url)
  /\ (forall url, QUrl_scheme url <> qs "file" ->
                  fromPercentEncoding (QUrl_url url) = QUrl_url url ->
                  removeFileScheme url = QUrl_url url).
Proof.
  split.
  - intros s. rewrite sortedFileList_as_written, in_map_iff.
    split; intros (u & H1 & H2); exists u; rewrite fileRef_is_removeFileScheme in *;
      auto.
  - intros url Hs Hp. unfold removeFileScheme.
    destruct (QString_eqb (QUrl_scheme url) (qs "file")) eqn:E.
    + apply QString_eqb_eq in E. contradiction.
    + exact Hp.
Qed.

End GrouperFacts.

Lemma sortedFileList_same_multiset_witness :
  Permutation (sortedFileList [clip_mov; GOPR0012; GP020012])
              (map fileRef [clip_mov; GOPR0012; GP020012]).
Proof.
  apply (@sortedFileList_same_multiset asciiQt [clip_mov; GOPR0012; GP020012]).
Defined.

Lemma sortedFileList_without_GoPro_witness :
  sortedFileList [clip_mov; plainUrl "notes.txt"]
  = map removeFileScheme [clip_mov; plainUrl "notes.txt"]
  /\ sortedFileList [clip_mov; plainUrl "notes.txt"]
     = map QUrl_url [clip_mov; plainUrl "notes.txt"].
Proof.
  assert (Hp : Forall (fun url => matchesGoProPattern (fileInfo url) = false)
                      [clip_mov; plainUrl "notes.txt"])
    by (repeat constructor).
  assert (Hr : Forall (fun url => QUrl_scheme url <> qs "file"
                        /\ fromPercentEncoding (QUrl_url url) = QUrl_url url)
                      [clip_mov; plainUrl "notes.txt"])
    by (repeat constructor; discriminate).
  split.
  - exact (proj1 (@sortedFileList_without_GoPro asciiQt _ Hp)).
  - exact (proj1 (proj2 (@sortedFileList_without_GoPro asciiQt _ Hp)) Hr).
Defined.

(** C7, as the claim states it, fails on a list without any GoPro name whose
    URLs have the scheme file or a percent escape: the output is not the
    list of the URLs' strings. *)
Lemma sortedFileList_without_GoPro_not_unchanged :
  Forall (fun url => matchesGoProPattern (fileInfo url) = false)
         [localFileUrl "/media/clip.mov"; plainUrl "clip%231.mov"]
  /\ sortedFileList [localFileUrl "/media/clip.mov"; plainUrl "clip%231.mov"]
     = [qs "/media/clip.mov"; qs "clip#1.mov"]
  /\ sortedFileList [localFileUrl "/media/clip.mov"; plainUrl "clip%231.mov"]
     <> map QUrl_url [localFileUrl "/media/clip.mov"; plainUrl "clip%231.mov"].
Proof.
  split; [repeat constructor|]. split; [reflexivity|].
  vm_compute. discriminate.
Qed.

Lemma sortedFileList_emits_removeFileScheme_witness :
  In (qs "/media/clip.mov")
     (sortedFileList [localFileUrl "/media/clip.mov"; clip_mov])
  /\ (exists url, In url [localFileUrl "/media/clip.mov"; clip_mov]
                  /\ qs "clip.mov" = removeFileScheme url)
  /\ removeFileScheme clip_mov = QUrl_url clip_mov.
Proof.
  pose proof (@sortedFileList_emits_removeFileScheme
                asciiQt [localFileUrl "/media/clip.mov"; clip_mov]) as [H1 H2].
  split; [|split].
  - apply (proj2 (H1 (qs "/media/clip.mov"))).
    exists (localFileUrl "/media/clip.mov"). split; [now left | reflexivity].
  - apply (proj1 (H1 (qs "clip.mov"))). right. now left.
  - apply H2; [discriminate | reflexivity].
Defined.

(** C8, as the claim states it, fails on a URL of scheme file and on a URL
    with a percent escape: the emitted string is not the URL's string. *)
Lemma sortedFileList_changes_representation :
  sortedFileList [localFileUrl "/media/clip.mov"] = [qs "/media/clip.mov"]
  /\ sortedFileList [localFileUrl "/media/clip.mov"]
     <> map QUrl_url [localFileUrl "/media/clip.mov"]
  /\ sortedFileList [plainUrl "clip%231.mov"] = [qs "clip#1.mov"]
  /\ sortedFileList [plainUrl "clip%231.mov"]
     <> map QUrl_url [plainUrl "clip%231.mov"].
Proof.
  repeat split; try reflexivity; vm_compute; discriminate.
Qed.

(** C1 at GOPR0012.MP4: the stem has 8 characters, the extension is MP4 and
    the first 4 characters are GOPR, yet the first loop does not take the
    file for a first file and opens no group for clip 0012. *)
Lemma GOPR0012_opens_no_group :
  size (baseName (fileInfo GOPR0012)) = 8%Z
  /\ isValidGoProSuffix (fileInfo GOPR0012) = true
  /\ stemStartsFirstFile (fileInfo GOPR0012) = true
  /\ mid 4 (baseName (fileInfo GOPR0012)) = qs "0012"
  /\ isValidGoProFirstFilePrefix (fileInfo GOPR0012) = false
  /\ fold_left mainFileStep [GOPR0012] [] = []
  /\ fold_left mainFileStep [GOPR0012] [] <> group0012.
Proof.
  repeat split; try reflexivity. vm_compute. discriminate.
Qed.

(** C2 at GP020012.MP4: an 8-character stem that starts with GP, extension
    MP4, and a group for clip 0012 that exists and is not empty, yet the
    second loop does not take the file for a continuation and leaves the
    group as it was. *)
Lemma GP020012_is_not_appended :
  size (baseName (fileInfo GP020012)) = 8%Z
  /\ isValidGoProSuffix (fileInfo GP020012) = true
  /\ stemStartsContinuation (fileInfo GP020012) = true
  /\ QMap_contains group0012 (mid 4 (baseName (fileInfo GP020012))) = true
  /\ size (QMap_value group0012 (mid 4 (baseName (fileInfo GP020012)))) = 1%Z
  /\ isValidGoProPrefix (fileInfo GP020012) = false
  /\ splitFileStep group0012 GP020012 = group0012.
Proof.
  repeat split; reflexivity.
Qed.

(** C3 at the order clip.mov, GP030012.MP4, GP020012.MP4, GOPR0012.MP4: the
    output is the input order, not the grouped and sorted clip followed by
    clip.mov. *)
Lemma sortedFileList_leaves_example_ungrouped :
  sortedFileList [clip_mov; GP030012; GP020012; GOPR0012]
  = [qs "clip.mov"; qs "GP030012.MP4"; qs "GP020012.MP4"; qs "GOPR0012.MP4"]
  /\ sortedFileList [clip_mov; GP030012; GP020012; GOPR0012]
     <> [qs "GOPR0012.MP4"; qs "GP020012.MP4"; qs "GP030012.MP4"; qs "clip.mov"].
Proof.
  split; [reflexivity | vm_compute; discriminate].
Qed.

(** ** [Util::getFileHash] *)

(** The model of MD5 on the test suite of RFC 1321. *)
Example MD5_of_empty :
  toHex (MD5.digest []) = qs "d41d8cd98f00b204e9800998ecf8427e".
Proof. vm_compute. reflexivity. Qed.

Example MD5_of_abc :
  toHex (MD5.digest (bytesOf "abc")) = qs "900150983cd24fb0d6963f7d28e17f72".
Proof. vm_compute. reflexivity. Qed.

Example MD5_of_two_blocks :
  toHex (MD5.digest (bytesOf
    "12345678901234567890123456789012345678901234567890123456789012345678901234567890"))
  = qs "57edf4a22be3c955ac49da2e2107b67a".
Proof. vm_compute. reflexivity. Qed.

Lemma MD5_digest_length data : length (MD5.digest data) = 16%nat.
Proof.
  unfold MD5.digest.
  destruct (fold_left MD5.block _ MD5.init) as [[[a b] c] d]. reflexivity.
Qed.

Lemma toHex_length bytes : length (toHex bytes) = (2 * length bytes)%nat.
Proof. induction bytes as [|b bytes IH]; simpl; [reflexivity | lia]. Qed.

Lemma hexDigits_of_byte b :
  isLowerHexDigit (hexDigit (byteToZ b / 16)) = true
  /\ isLowerHexDigit (hexDigit (byteToZ b mod 16)) = true.
Proof. destruct b; split; reflexivity. Qed.

Lemma toHex_lowercase bytes : forallb isLowerHexDigit (toHex bytes) = true.
Proof.
  induction bytes as [|b bytes IH]; [reflexivity|].
  cbn [toHex forallb]. destruct (hexDigits_of_byte b) as [-> ->]. exact IH.
Qed.

(** A file of at most 2,000,000 bytes is read whole. *)
Lemma readFileData_small data :
  (size data <= 2000000)%Z -> fst (readFileData (mkQFile data 0)) = data.
Proof.
  intros H.
  cbv beta iota zeta delta [readFileData bind file_size file_readAll remaining
                            file_data file_pos fst].
  change (1000000 * 2)%Z with 2000000%Z.
  change (skipn (Z.to_nat 0) data) with data.
  replace (size data >? 2000000)%Z with false
    by (symmetry; rewrite Z.gtb_ltb; apply Z.ltb_ge; exact H).
  reflexivity.
Qed.

(** Of a larger file the first 1,000,000 bytes are read, then those from
    position [size - 1,000,000] on. *)
Lemma readFileData_large data :
  (2000000 < size data)%Z ->
  fst (readFileData (mkQFile data 0))
  = firstn (Z.to_nat 1000000) data
    ++ skipn (Z.to_nat (size data - 1000000)) data.
Proof.
  intros H.
  cbv beta iota zeta delta [readFileData bind file_size file_read file_seek
                            file_readAll ret remaining file_data file_pos fst].
  change (1000000 * 2)%Z with 2000000%Z.
  change (skipn (Z.to_nat 0) data) with data.
  replace (size data >? 2000000)%Z with true
    by (symmetry; rewrite Z.gtb_ltb; apply Z.ltb_lt; exact H).
  replace (size data - 1000000 <? 0)%Z with false
    by (symmetry; apply Z.ltb_ge; lia).
  reflexivity.
Qed.

Lemma getFileHash_of_readable fs path data :
  fs path = Some data ->
  getFileHash fs path = toHex (MD5.digest (fst (readFileData (mkQFile data 0)))).
Proof.
  intros H. unfold getFileHash. rewrite H.
  now destruct (readFileData (mkQFile data 0)).
Qed.

(** C5: of a readable file of more than 2,000,000 bytes [Util::getFileHash]
    hashes the first 1,000,000 bytes followed by the bytes from position
    [size - 1,000,000] to the end, 2,000,000 bytes in all; of a readable file
    of at most 2,000,000 bytes it hashes the whole contents. *)
Theorem getFileHash_hashes_bounded_sample
    (fs : FileSystem) (path : QString) (data : QByteArray) :
  fs path = Some data ->
  ((2000000 < size data)%Z ->
     getFileHash fs path
     = toHex (MD5.digest (firstn (Z.to_nat 1000000) data
                          ++ skipn (Z.to_nat (size data - 1000000)) data))
     /\ size (firstn (Z.to_nat 1000000) data
              ++ skipn (Z.to_nat (size data - 1000000)) data) = 2000000%Z)
  /\ ((size data <= 2000000)%Z ->
        getFileHash fs path = toHex (MD5.digest data)).
Proof.
  intros Hfs. rewrite (getFileHash_of_readable fs path Hfs). split; intros H.
  - rewrite (readFileData_large _ H). split; [reflexivity|].
    unfold size in *. rewrite length_app, length_firstn, length_skipn. lia.
  - now rewrite (readFileData_small _ H).
Qed.

Lemma getFileHash_hashes_bounded_sample_witness :
  getFileHash sampleFs (qs "/media/big.bin")
  = toHex (MD5.digest (firstn (Z.to_nat 1000000) bigData
                       ++ skipn (Z.to_nat (size bigData - 1000000)) bigData))
  /\ getFileHash sampleFs (qs "/media/abc.txt")
     = toHex (MD5.digest (bytesOf "abc")).
Proof.
  assert (Hbig : sampleFs (qs "/media/big.bin") = Some bigData) by reflexivity.
  assert (Habc : sampleFs (qs "/media/abc.txt") = Some (bytesOf "abc"))
    by reflexivity.
  assert (Lbig : (2000000 < size bigData)%Z) by (vm_compute; reflexivity).
  assert (Labc : (size (bytesOf "abc") <= 2000000)%Z)
    by (vm_compute; discriminate).
  split.
  - exact (proj1 (proj1 (getFileHash_hashes_bounded_sample
                           sampleFs (qs "/media/big.bin") Hbig) Lbig)).
  - exact (proj2 (getFileHash_hashes_bounded_sample
                    sampleFs (qs "/media/abc.txt") Habc) Labc).
Defined.

(** C6: for a path that cannot be opened [Util::getFileHash] returns the
    empty string; for a readable file it returns the MD5 digest of the bytes
    it read as 32 lowercase hexadecimal characters.  The function is total:
    no input makes it fail. *)
Theorem getFileHash_empty_or_digest (fs : FileSystem) (path : QString) :
  (fs path = None -> getFileHash fs path = [])
  /\ (forall data, fs path = Some data ->
        size (getFileHash fs path) = 32%Z
        /\ forallb isLowerHexDigit (getFileHash fs path) = true
        /\ getFileHash fs path
           = toHex (MD5.digest (fst (readFileData (mkQFile data 0))))).
Proof.
  split.
  - intros H. unfold getFileHash. now rewrite H.
  - intros data H. rewrite (getFileHash_of_readable fs path H).
    repeat split.
    + unfold size. now rewrite toHex_length, MD5_digest_length.
    + apply toHex_lowercase.
Qed.

Lemma getFileHash_empty_or_digest_witness :
  getFileHash sampleFs (qs "/media/missing.mp4") = []
  /\ size (getFileHash sampleFs (qs "/media/abc.txt")) = 32%Z
  /\ getFileHash sampleFs (qs "/media/abc.txt")
     = qs "900150983cd24fb0d6963f7d28e17f72".
Proof.
  assert (Hnone : sampleFs (qs "/media/missing.mp4") = None) by reflexivity.
  assert (Habc : sampleFs (qs "/media/abc.txt") = Some (bytesOf "abc"))
    by reflexivity.
  split; [|split].
  - exact (proj1 (getFileHash_empty_or_digest
                    sampleFs (qs "/media/missing.mp4")) Hnone).
  - exact (proj1 (proj2 (getFileHash_empty_or_digest
                           sampleFs (qs "/media/abc.txt")) _ Habc)).
  - vm_compute. reflexivity.
Defined.

(** * Further properties *)

(** ** [Util::coerceMultiple]: fixed points and monotonicity *)

Lemma round_up_of_multiple k m :
  (0 < m)%Z -> ((k * m + m - 1) / m * m = k * m)%Z.
Proof.
  intros Hm. f_equal.
  replace (k * m + m - 1)%Z with ((m - 1) + k * m)%Z by lia.
  rewrite Z.div_add by lia. rewrite Z.div_small; lia.
Qed.

(** X1: within the range of C9, [Util::coerceMultiple] returns its argument
    exactly when the argument is a multiple already. *)
Theorem coerceMultiple_fixed_point v m :
  (0 <= v)%Z -> (0 < m)%Z -> (v + m <= Int.INT_MAX)%Z ->
  coerceMultiple v m = Some v <-> (m | v)%Z.
Proof.
  intros Hv Hm Hb. rewrite coerceMultiple_exact by lia. split.
  - intros E. inversion E as [E']. rewrite E'.
    exists ((v + m - 1) / m)%Z. now rewrite E'.
  - intros [k ->]. f_equal. now apply round_up_of_multiple.
Qed.

Lemma coerceMultiple_fixed_point_witness :
  coerceMultiple 1920 16 = Some 1920%Z <-> (16 | 1920)%Z.
Proof.
  apply (@coerceMultiple_fixed_point 1920 16); unfold Int.INT_MAX; lia.
Defined.

(** X2: within the range of C9, [Util::coerceMultiple] is monotone in its
    value: a larger value never rounds to a smaller multiple. *)
Theorem coerceMultiple_monotone v v' m r r' :
  (0 <= v <= v')%Z -> (0 < m)%Z -> (v' + m <= Int.INT_MAX)%Z ->
  coerceMultiple v m = Some r -> coerceMultiple v' m = Some r' ->
  (r <= r')%Z.
Proof.
  intros Hv Hm Hb. rewrite !coerceMultiple_exact by lia.
  intros E E'. inversion E. inversion E'.
  apply Z.mul_le_mono_nonneg_r; [lia|].
  apply Z.div_le_mono; lia.
Qed.

Lemma coerceMultiple_monotone_witness :
  coerceMultiple 1080 16 = Some 1088%Z
  /\ coerceMultiple 1919 16 = Some 1920%Z
  /\ (1088 <= 1920)%Z.
Proof.
  split; [reflexivity|]. split; [reflexivity|].
  apply (@coerceMultiple_monotone 1080 1919 16 1088 1920);
    try reflexivity; unfold Int.INT_MAX; lia.
Defined.

(** ** [Util::baseName] *)

Lemma afterLast_Some sep s t :
  afterLast sep s = Some t -> exists p, s = p ++ sep :: t /\ ~ In sep t.
Proof.
  revert t; induction s as [|c s IH]; intros t; simpl; [discriminate|].
  destruct (afterLast sep s) as [u|] eqn:E.
  - intros H. inversion H; subst u.
    destruct (IH t eq_refl) as (p & -> & Hn).
    exists (c :: p). split; [reflexivity | exact Hn].
  - destruct (QChar_eqb c sep) eqn:Ec; [|discriminate].
    intros H. inversion H; subst t. apply QChar_eqb_eq in Ec. subst c.
    exists []. split; [reflexivity|].
    clear IH. induction s as [|x s IHs]; simpl; [tauto|].
    simpl in E. destruct (afterLast sep s); [discriminate|].
    destruct (QChar_eqb x sep) eqn:Ex; [discriminate|].
    apply QChar_eqb_neq in Ex. intros [F|F]; [congruence | now apply IHs].
Qed.

Lemma afterLast_None sep s : ~ In sep s -> afterLast sep s = None.
Proof.
  induction s as [|c s IH]; simpl; [reflexivity|]. intros H.
  rewrite IH by tauto.
  destruct (QChar_eqb c sep) eqn:E; [|reflexivity].
  apply QChar_eqb_eq in E. tauto.
Qed.

Lemma fileName_of_path s :
  exists p, s = p ++ fileName (mkQFileInfo s)
            /\ ~ In (chr "/") (fileName (mkQFileInfo s))
            /\ (fileName (mkQFileInfo s) <> s ->
                exists dir, p = dir ++ [chr "/"]).
Proof.
  unfold fileName. cbn [filePath].
  destruct (afterLast (chr "/") s) as [t|] eqn:E.
  - destruct (afterLast_Some _ _ E) as (p & -> & Hn).
    exists (p ++ [chr "/"]). rewrite <- app_assoc.
    split; [reflexivity|]. split; [exact Hn|]. intros _. now exists p.
  - exists []. split; [reflexivity|]. split; [|tauto].
    clear -E. induction s as [|c s IH]; [intros []|].
    cbn [afterLast] in E. destruct (afterLast (chr "/") s); [discriminate|].
    destruct (QChar_eqb c (chr "/")) eqn:Ec; [discriminate|].
    apply QChar_eqb_neq in Ec. intros [F|F]; [congruence | now apply IH].
Qed.

Lemma fileName_without_slash s :
  ~ In (chr "/") s -> fileName (mkQFileInfo s) = s.
Proof.
  intros H. unfold fileName. cbn [filePath]. now rewrite afterLast_None.
Qed.

Lemma Util_baseName_cases s :
  Util_baseName s = fileName (mkQFileInfo s) \/ Util_baseName s = s.
Proof. unfold Util_baseName. cbv zeta. destruct (_ || _ || _); auto. Qed.

Lemma Util_baseName_without_slash s :
  ~ In (chr "/") s -> Util_baseName s = s.
Proof.
  intros H. destruct (Util_baseName_cases s) as [E|E]; [|exact E].
  rewrite E. now apply fileName_without_slash.
Qed.

(** X3: [Util::baseName] is idempotent: applied to its own result it
    returns that result. *)
Theorem Util_baseName_idempotent (s : QString) :
  Util_baseName (Util_baseName s) = Util_baseName s.
Proof.
  destruct (Util_baseName_cases s) as [E|E].
  - rewrite E. apply Util_baseName_without_slash.
    now destruct (fileName_of_path s) as (_ & _ & Hn & _).
  - rewrite E. exact E.
Qed.

(** X4: [Util::baseName] always returns an end piece of its argument; of a
    path that starts with '/' it returns what follows the last '/', which
    holds no '/' itself. *)
Theorem Util_baseName_is_last_component (s : QString) :
  (exists p, s = p ++ Util_baseName s)
  /\ (startsWith s (chr "/") = true ->
      ~ In (chr "/") (Util_baseName s)
      /\ exists dir, s = dir ++ [chr "/"] ++ Util_baseName s).
Proof.
  destruct (fileName_of_path s) as (p & Hp & Hn & Hd). split.
  - unfold Util_baseName. cbv zeta.
    destruct (_ || _ || _); [now exists p | now exists []].
  - intros Hs. unfold Util_baseName. cbv zeta. rewrite Hs. simpl orb. cbv iota.
    split; [exact Hn|].
    destruct Hd as (dir & ->).
    + intros E. rewrite E in Hn. destruct s as [|c s]; [discriminate|].
      simpl in Hs. apply QChar_eqb_eq in Hs. subst c. apply Hn. now left.
    + exists dir. now rewrite app_assoc.
Qed.

Lemma Util_baseName_is_last_component_witness :
  ~ In (chr "/") (Util_baseName (qs "/home/user/clip.mp4"))
  /\ Util_baseName (qs "/home/user/clip.mp4") = qs "clip.mp4"
  /\ Util_baseName (qs "http://host/clip.mp4") = qs "http://host/clip.mp4".
Proof.
  split; [|split; reflexivity].
  apply (proj2 (Util_baseName_is_last_component (qs "/home/user/clip.mp4"))).
  reflexivity.
Defined.

(** ** [Util::convertDecimalPoints] *)

Lemma containsChar_In s c : containsChar s c = true <-> In c s.
Proof.
  unfold containsChar. rewrite existsb_exists. split.
  - intros (x & Hx & E). apply QChar_eqb_eq in E. now subst.
  - intros H. exists c. split; [exact H | now apply QChar_eqb_eq].
Qed.

Lemma convertPointsLoop_cons c s d r :
  let hit := negb (QChar_eqb c d) && replaceablePoint c in
  convertPointsLoop (c :: s) d r
  = (fst (convertPointsLoop s d (r || hit)),
     (if hit then d else c) :: snd (convertPointsLoop s d (r || hit))).
Proof.
  cbv zeta. cbn [convertPointsLoop]. unfold replaceablePoint.
  rewrite andb_assoc.
  destruct (negb (QChar_eqb c d) && negb (QChar_eqb c (chr " "))
            && isDecimalPoint c).
  - rewrite orb_true_r. now destruct (convertPointsLoop s d true).
  - rewrite orb_false_r. now destruct (convertPointsLoop s d r).
Qed.

Lemma convertPointsLoop_snd s d r :
  snd (convertPointsLoop s d r) = map (pointConverted d) s.
Proof.
  revert r; induction s as [|c s IH]; intros r; [reflexivity|].
  rewrite convertPointsLoop_cons. cbn [snd map]. rewrite IH. f_equal.
  unfold pointConverted.
  destruct (QChar_eqb c d) eqn:E; cbn [negb andb].
  - apply QChar_eqb_eq in E. subst c. now destruct (replaceablePoint d).
  - reflexivity.
Qed.

Lemma convertPointsLoop_fst s d r :
  fst (convertPointsLoop s d r) = true <->
  r = true \/ Exists (fun c => replaceablePoint c = true /\ c <> d) s.
Proof.
  revert r; induction s as [|c s IH]; intros r.
  - cbn [convertPointsLoop fst]. rewrite Exists_nil. tauto.
  - rewrite convertPointsLoop_cons. cbn [fst]. rewrite IH, Exists_cons.
    rewrite orb_true_iff, andb_true_iff, negb_true_iff, QChar_eqb_neq. tauto.
Qed.

Lemma pointConverted_changes s d :
  map (pointConverted d) s <> s <->
  Exists (fun c => replaceablePoint c = true /\ c <> d) s.
Proof.
  induction s as [|c s IH]; simpl.
  - rewrite Exists_nil. tauto.
  - rewrite Exists_cons, <- IH. unfold pointConverted at 1.
    destruct (replaceablePoint c) eqn:P.
    + destruct (N.eq_dec c d) as [->|Hn].
      * split; [intros H; right; intros E; apply H; now rewrite E
               | intros [[_ H]|H]; [congruence | intros E; inversion E; auto]].
      * split; [intros _; left; auto | intros _ E; inversion E; congruence].
    + split; [intros H; right; intros E; apply H; now rewrite E
             | intros [[H _]|H]; [discriminate | intros E; inversion E; auto]].
Qed.

Lemma pointConverted_In d s : In d (map (pointConverted d) s) <->
  In d s \/ Exists (fun c => replaceablePoint c = true) s.
Proof.
  induction s as [|c s IH]; simpl.
  - rewrite Exists_nil. tauto.
  - rewrite Exists_cons, IH. unfold pointConverted at 1.
    destruct (replaceablePoint c); intuition congruence.
Qed.

(** X5: [Util::convertDecimalPoints] returns true exactly when it changed
    the string, which is exactly when the string does not contain [d] and
    holds a recognised decimal point other than the space; then each such
    decimal point has become [d].  Nothing else changes: in particular a
    space stays a space and the length stays the same. *)
Theorem convertDecimalPoints_true_iff_changed (s : QString) (d : QChar) :
  let r := fst (convertDecimalPoints s d) in
  let s' := snd (convertDecimalPoints s d) in
  (r = true <-> s' <> s)
  /\ (r = true <->
      ~ In d s /\ Exists (fun c => replaceablePoint c = true) s)
  /\ s' = map (fun c => if r && replaceablePoint c then d else c) s
  /\ length s' = length s
  /\ (forall i, nth_error s i = Some (chr " ") ->
                nth_error s' i = Some (chr " ")).
Proof.
  cbv zeta.
  assert (HM : forall r, map (fun c => if r && replaceablePoint c then d else c) s
                         = if r then map (pointConverted d) s else s).
  { intros [|]; simpl; [reflexivity | apply map_id]. }
  assert (HE : ~ In d s ->
               (Exists (fun c => replaceablePoint c = true /\ c <> d) s
                <-> Exists (fun c => replaceablePoint c = true) s)).
  { intros Hd. rewrite !Exists_exists.
    split; intros (c & Hc & H); exists c; intuition congruence. }
  assert (main :
    (fst (convertDecimalPoints s d) = true <-> snd (convertDecimalPoints s d) <> s)
    /\ (fst (convertDecimalPoints s d) = true <->
        ~ In d s /\ Exists (fun c => replaceablePoint c = true) s)
    /\ snd (convertDecimalPoints s d)
       = map (fun c => if fst (convertDecimalPoints s d) && replaceablePoint c
                       then d else c) s).
  { unfold convertDecimalPoints.
    pose proof (containsChar_In s d) as HC.
    destruct (containsChar s d) eqn:C; simpl negb; cbv iota.
    - simpl. rewrite map_id. intuition discriminate.
    - assert (Hd : ~ In d s) by (intros F; apply HC in F; discriminate).
      pose proof (convertPointsLoop_fst s d false) as HF.
      pose proof (convertPointsLoop_snd s d false) as HS.
      destruct (convertPointsLoop s d false) as [r s']. simpl in *.
      rewrite HM, HS, pointConverted_changes, HF, (HE Hd).
      split; [intuition discriminate|]. split; [intuition discriminate|].
      destruct r; [reflexivity|].
      destruct (list_eq_dec N.eq_dec (map (pointConverted d) s) s) as [Q|Q];
        [exact Q|].
      apply pointConverted_changes, (HE Hd) in Q.
      assert (false = true) by tauto. discriminate. }
  destruct main as (H1 & H2 & H3).
  split; [exact H1|]. split; [exact H2|]. split; [exact H3|].
  rewrite H3. split; [apply length_map|].
  intros i Hi. rewrite nth_error_map, Hi. simpl.
  now rewrite andb_false_r.
Qed.

(** X6: a second call of [Util::convertDecimalPoints] with the same decimal
    point returns false and leaves the string as the first call left it. *)
Theorem convertDecimalPoints_twice (s : QString) (d : QChar) :
  convertDecimalPoints (snd (convertDecimalPoints s d)) d
  = (false, snd (convertDecimalPoints s d)).
Proof.
  unfold convertDecimalPoints at 2 3.
  destruct (containsChar s d) eqn:C; simpl negb; cbv iota.
  - simpl. unfold convertDecimalPoints. now rewrite C.
  - pose proof (convertPointsLoop_fst s d false) as HF.
    pose proof (convertPointsLoop_snd s d false) as HS.
    destruct (convertPointsLoop s d false) as [r s'] eqn:L. cbn [fst snd] in *.
    destruct r.
    + assert (Hin : In d s').
      { rewrite HS. apply pointConverted_In. right.
        destruct HF as [HF _]. destruct (HF eq_refl) as [F|F]; [discriminate|].
        rewrite Exists_exists in *. destruct F as (c & Hc & H & _). eauto. }
      unfold convertDecimalPoints.
      apply containsChar_In in Hin. now rewrite Hin.
    + assert (E : s' = s).
      { rewrite HS.
        destruct (list_eq_dec N.eq_dec (map (pointConverted d) s) s) as [Q|Q];
          [exact Q|].
        apply pointConverted_changes in Q.
        assert (false = true) by tauto. discriminate. }
      subst s'. rewrite E in L |- *. unfold convertDecimalPoints.
      now rewrite C, L.
Qed.

(** ** [Util::convertNumericString], again *)

Section ConvertTwice.
Context {qt : QtText}.

Lemma converted_fixed d s :
  ~ Exists (foreignDecimalPoint d) s -> map (converted d) s = s.
Proof.
  intros H.
  destruct (list_eq_dec N.eq_dec (map (converted d) s) s) as [Q|Q]; [exact Q|].
  now apply converted_changes in Q.
Qed.

Lemma converted_no_foreign d s :
  ~ Exists (foreignDecimalPoint d) (map (converted d) s).
Proof.
  rewrite Exists_exists. intros (c' & Hin & Hp & Hne).
  apply in_map_iff in Hin. destruct Hin as (c & <- & _).
  unfold converted in *. destruct (isDecimalPoint c) eqn:P; congruence.
Qed.

(** X7: a second call of [Util::convertNumericString] with the same decimal
    point returns false and leaves the string as the first call left it. *)
Theorem convertNumericString_twice (s : QString) (d : QChar) :
  convertNumericString (snd (convertNumericString s d)) d
  = (false, snd (convertNumericString s d)).
Proof.
  assert (idle : forall t, ~ Exists (foreignDecimalPoint d) t ->
                           convertNumericString t d = (false, t)).
  { intros t Ht. unfold convertNumericString.
    destruct (isNumeric t); [|reflexivity].
    pose proof (convertLoop_fst t d false) as HF.
    pose proof (convertLoop_snd t d false) as HS.
    destruct (convertLoop t d false) as [r t']. simpl in *.
    rewrite HS, (converted_fixed Ht). destruct r; [|reflexivity].
    destruct HF as [HF _]. destruct (HF eq_refl); [discriminate | contradiction]. }
  unfold convertNumericString at 2 3.
  destruct (isNumeric s) eqn:E.
  - rewrite convertLoop_snd. apply idle, converted_no_foreign.
  - simpl. unfold convertNumericString. now rewrite E.
Qed.

(** X8: on a string that passes [Util::isNumeric], holds no space and does
    not contain [d], [Util::convertDecimalPoints] and
    [Util::convertNumericString] return the same result and leave the same
    string. *)
Theorem converters_agree (s : QString) (d : QChar) :
  isNumeric s = true -> ~ In (chr " ") s -> ~ In d s ->
  convertDecimalPoints s d = convertNumericString s d.
Proof.
  intros HN Hsp Hd. unfold convertDecimalPoints, convertNumericString.
  rewrite HN.
  replace (containsChar s d) with false
    by (symmetry; apply not_true_is_false; now rewrite containsChar_In).
  simpl negb. cbv iota. clear HN Hd. generalize false.
  induction s as [|c s IH]; intros r; [reflexivity|].
  assert (Hc : QChar_eqb c (chr " ") = false)
    by (apply QChar_eqb_neq; intros ->; apply Hsp; now left).
  assert (Hs : ~ In (chr " ") s) by (intros F; apply Hsp; now right).
  rewrite convertPointsLoop_cons. cbv zeta. cbn [convertLoop].
  unfold replaceablePoint. rewrite Hc. cbn [negb andb].
  destruct (negb (QChar_eqb c d) && isDecimalPoint c).
  - rewrite orb_true_r, (IH Hs). now destruct (convertLoop s d true).
  - rewrite orb_false_r, (IH Hs). now destruct (convertLoop s d r).
Qed.

End ConvertTwice.

Lemma converters_agree_witness :
  convertDecimalPoints (qs "1,5e3") (chr ".") = (true, qs "1.5e3").
Proof.
  rewrite (@converters_agree asciiQt (qs "1,5e3") (chr "."));
    [reflexivity | reflexivity | |];
    vm_compute; intuition discriminate.
Defined.

(** ** [Util::getFileHash]: what the sample leaves out *)

Lemma sample_of_three_parts (head middle tail : QByteArray) :
  size head = 1000000%Z -> size tail = 1000000%Z ->
  firstn (Z.to_nat 1000000) (head ++ middle ++ tail)
  ++ skipn (Z.to_nat (size (head ++ middle ++ tail) - 1000000))
           (head ++ middle ++ tail)
  = head ++ tail.
Proof.
  unfold size. intros Hh Ht. f_equal.
  - rewrite firstn_app.
    replace (Z.to_nat 1000000 - length head)%nat with 0%nat by lia.
    rewrite firstn_O, app_nil_r. apply firstn_all2. lia.
  - rewrite app_assoc, skipn_app.
    rewrite skipn_all2 by (rewrite !length_app; lia).
    replace (_ - _)%nat with 0%nat by (rewrite !length_app; lia).
    reflexivity.
Qed.

Lemma getFileHash_of_three_parts fs path (head middle tail : QByteArray) :
  size head = 1000000%Z -> size tail = 1000000%Z ->
  fs path = Some (head ++ middle ++ tail) ->
  getFileHash fs path = toHex (MD5.digest (head ++ tail)).
Proof.
  intros Hh Ht F. rewrite (getFileHash_of_readable fs path F).
  destruct middle as [|b middle].
  - cbn [app]. rewrite readFileData_small; [reflexivity|].
    unfold size in *. rewrite length_app. lia.
  - rewrite readFileData_large.
    + now rewrite sample_of_three_parts.
    + unfold size in *. rewrite !length_app. cbn [length]. lia.
Qed.

(** X9: of a file made of 1,000,000 bytes, a middle part of any length and
    another 1,000,000 bytes, [Util::getFileHash] hashes the two outer parts
    only: two such files that differ in nothing but the middle part get the
    same hash. *)
Theorem getFileHash_ignores_middle
    (fs : FileSystem) (path1 path2 : QString)
    (head middle1 middle2 tail : QByteArray) :
  size head = 1000000%Z -> size tail = 1000000%Z ->
  fs path1 = Some (head ++ middle1 ++ tail) ->
  fs path2 = Some (head ++ middle2 ++ tail) ->
  getFileHash fs path1 = toHex (MD5.digest (head ++ tail))
  /\ getFileHash fs path2 = getFileHash fs path1.
Proof.
  intros Hh Ht F1 F2.
  rewrite (getFileHash_of_three_parts fs path1 head middle1 tail Hh Ht F1).
  rewrite (getFileHash_of_three_parts fs path2 head middle2 tail Hh Ht F2).
  split; reflexivity.
Qed.

Lemma getFileHash_ignores_middle_witness :
  getFileHash twoBigFiles (qs "/media/b.bin")
  = getFileHash twoBigFiles (qs "/media/a.bin").
Proof.
  assert (Hh : size megabyte = 1000000%Z) by (vm_compute; reflexivity).
  refine (proj2 (@getFileHash_ignores_middle
                   twoBigFiles (qs "/media/a.bin") (qs "/media/b.bin")
                   megabyte [x00] [xff; xff; xff] megabyte
                   Hh Hh eq_refl eq_refl)).
Defined.

(** ** [Util::getHash] *)

Lemma getFileHash_hex fs path :
  forallb isLowerHexDigit (getFileHash fs path) = true.
Proof.
  unfold getFileHash. destruct (fs path); [|reflexivity].
  destruct (readFileData _). apply toHex_lowercase.
Qed.

(** The hexadecimal digits survive [toLatin1], hold no NUL and are ASCII. *)
Lemma hexDigit_as_byte c :
  isLowerHexDigit c = true ->
  exists b, (if (c <? 256)%N then byteOfZ (Z.of_N c) else "?"%byte) = b
            /\ Byte.eqb b x00 = false /\ (Byte.to_N b < 128)%N
            /\ Byte.to_N b = c.
Proof.
  unfold isLowerHexDigit.
  rewrite orb_true_iff, !andb_true_iff, !N.leb_le. intros H.
  assert (D : (c = 48 \/ c = 49 \/ c = 50 \/ c = 51 \/ c = 52 \/ c = 53
               \/ c = 54 \/ c = 55 \/ c = 56 \/ c = 57 \/ c = 97 \/ c = 98
               \/ c = 99 \/ c = 100 \/ c = 101 \/ c = 102)%N) by lia.
  clear H.
  repeat (destruct D as [->|D]; [eexists; repeat split; reflexivity|]).
  subst c. eexists; repeat split; reflexivity.
Qed.

Section GetHashFacts.
Context {mlt : MltText}.

Lemma hex_through_properties h :
  forallb isLowerHexDigit h = true -> fromUtf8 (c_str (toLatin1 h)) = h.
Proof.
  intros H.
  assert (P : c_str (toLatin1 h) = toLatin1 h
              /\ Forall (fun b => (Byte.to_N b < 128)%N) (toLatin1 h)
              /\ map Byte.to_N (toLatin1 h) = h).
  { induction h as [|c h IH]; [repeat split; constructor|].
    cbn [forallb] in H. apply andb_true_iff in H. destruct H as [Hc Hh].
    destruct (IH Hh) as (I1 & I2 & I3).
    destruct (hexDigit_as_byte c Hc) as (b & Eb & Nz & Lt & Eq).
    unfold toLatin1 in *. cbn [map c_str]. rewrite Eb.
    cbn [c_str]. rewrite Nz. repeat split.
    - now rewrite I1.
    - now constructor.
    - cbn [map]. now rewrite Eq, I3. }
  destruct P as (P1 & P2 & P3). rewrite P1, fromUtf8_ascii by exact P2.
  exact P3.
Qed.

Lemma Properties_get_set properties name value :
  Properties_get (Properties_set properties name value) name
  = fromUtf8 (c_str value).
Proof.
  unfold Properties_get, Properties_set. now rewrite String.eqb_refl.
Qed.

Lemma isEmpty_true s : isEmpty s = true <-> s = [].
Proof. destruct s; simpl; split; congruence. Qed.

(** X10: once [Util::getHash] has returned a hash that is not empty, every
    later call on the properties it left returns that hash and changes
    nothing, whatever the files hold by then. *)
Theorem getHash_memoizes (fs fs' : FileSystem) (properties : Properties) :
  fst (getHash fs properties) <> [] ->
  getHash fs' (snd (getHash fs properties)) = getHash fs properties.
Proof.
  unfold getHash at 1 3 4.
  destruct (isEmpty (Properties_get properties kShotcutHashProperty)) eqn:E.
  - destruct (isEmpty (getFileHash fs (hashedResource properties))) eqn:F;
      cbn [negb fst snd].
    + apply isEmpty_true in F. intros H. contradiction.
    + intros _. unfold getHash.
      rewrite Properties_get_set, hex_through_properties
        by apply getFileHash_hex.
      now rewrite F.
  - cbn [fst snd]. intros _. unfold getHash. now rewrite E.
Qed.

(** X11: [Util::getHash] changes no property but the hash; when no hash is
    stored and the file to hash cannot be opened it returns the empty string
    and leaves the properties as they are; when a hash is stored it returns
    that hash without regard to the files. *)
Theorem getHash_touches_only_the_hash (fs : FileSystem) (properties : Properties) :
  (forall name, name <> kShotcutHashProperty ->
                snd (getHash fs properties) name = properties name)
  /\ (Properties_get properties kShotcutHashProperty = [] ->
      fs (hashedResource properties) = None ->
      getHash fs properties = ([], properties))
  /\ (Properties_get properties kShotcutHashProperty <> [] ->
      forall fs', getHash fs' properties
                  = (Properties_get properties kShotcutHashProperty, properties)).
Proof.
  split; [|split].
  - intros name Hn. unfold getHash.
    destruct (isEmpty (Properties_get properties kShotcutHashProperty));
      [|reflexivity].
    destruct (isEmpty (getFileHash fs (hashedResource properties)));
      cbn [negb snd]; [reflexivity|].
    unfold Properties_set. apply String.eqb_neq in Hn. now rewrite Hn.
  - intros E F. unfold getHash. rewrite E. cbn [isEmpty].
    unfold getFileHash. now rewrite F.
  - intros E fs'. unfold getHash.
    destruct (isEmpty (Properties_get properties kShotcutHashProperty)) eqn:I;
      [|reflexivity].
    apply isEmpty_true in I. contradiction.
Qed.

End GetHashFacts.

Lemma getHash_memoizes_witness :
  getHash emptyFs (snd (getHash sampleFs clipProperties))
  = getHash sampleFs clipProperties
  /\ fst (getHash sampleFs clipProperties)
     = qs "900150983cd24fb0d6963f7d28e17f72".
Proof.
  split; [|vm_compute; reflexivity].
  apply (@getHash_memoizes asciiMlt sampleFs emptyFs clipProperties).
  vm_compute. discriminate.
Defined.

Lemma getHash_touches_only_the_hash_witness :
  snd (getHash sampleFs clipProperties) "resource"%string
  = clipProperties "resource"%string
  /\ getHash emptyFs clipProperties = ([], clipProperties).
Proof.
  split.
  - apply (proj1 (@getHash_touches_only_the_hash asciiMlt sampleFs clipProperties)).
    discriminate.
  - apply (proj1 (proj2 (@getHash_touches_only_the_hash
                           asciiMlt emptyFs clipProperties)));
      reflexivity.
Defined.

(** ** [Util::expandDirectories] *)

Section ExpandDirectoriesFacts.
Context {qt : QtText}.
Variable entryInfoList : QString -> option (list QString).
Variable QUrl_of_QString : QString -> QUrl.

(** The function and its loop body on this listing and this conversion. *)
Local Notation "'expand'" :=
  (expandDirectories entryInfoList QUrl_of_QString) (only parsing).
Local Notation "'step'" :=
  (expandStep entryInfoList QUrl_of_QString) (only parsing).

Lemma expandStep_appends result url : step result url = result ++ step [] url.
Proof.
  unfold expandStep. destruct (entryInfoList (removeFileScheme url)) as [files|];
    [|reflexivity].
  assert (H : forall acc, fold_left (fun r f => r ++ [QUrl_of_QString f]) files acc
                          = acc ++ map QUrl_of_QString files).
  { induction files as [|f files IH]; intros acc; simpl.
    - now rewrite app_nil_r.
    - now rewrite IH, <- app_assoc. }
  now rewrite !H.
Qed.

Lemma fold_expandStep urls result :
  fold_left step urls result = result ++ fold_left step urls [].
Proof.
  revert result; induction urls as [|u urls IH]; intros result; simpl.
  - now rewrite app_nil_r.
  - rewrite IH, (IH (step [] u)), expandStep_appends, app_assoc. reflexivity.
Qed.

(** X12: [Util::expandDirectories] works URL by URL and keeps the order: the
    expansion of two lists one after the other is the two expansions one
    after the other; a list of URLs none of which names a directory comes
    back as it is; a URL that names a directory without readable files
    contributes nothing. *)
Theorem expandDirectories_by_url (urls1 urls2 : list QUrl) :
  expandDirectories entryInfoList QUrl_of_QString (urls1 ++ urls2)
  = expandDirectories entryInfoList QUrl_of_QString urls1
    ++ expandDirectories entryInfoList QUrl_of_QString urls2
  /\ (Forall (fun url => entryInfoList (removeFileScheme url) = None) urls1 ->
      expandDirectories entryInfoList QUrl_of_QString urls1 = urls1)
  /\ (forall url, entryInfoList (removeFileScheme url) = Some [] ->
        expandDirectories entryInfoList QUrl_of_QString (urls1 ++ [url] ++ urls2)
        = expandDirectories entryInfoList QUrl_of_QString (urls1 ++ urls2)).
Proof.
  assert (A : forall a b, expand (a ++ b) = expand a ++ expand b).
  { intros a b. unfold expandDirectories.
    now rewrite fold_left_app, fold_expandStep. }
  split; [apply A|]. split.
  - intros H. induction H as [|u urls Hu _ IH]; [reflexivity|].
    change (u :: urls) with ([u] ++ urls). rewrite A, IH. f_equal.
    unfold expandDirectories, expandStep. simpl. now rewrite Hu.
  - intros url Hu. rewrite !A. do 2 f_equal.
    unfold expandDirectories at 1, expandStep. simpl. now rewrite Hu.
Qed.

End ExpandDirectoriesFacts.

Lemma expandDirectories_by_url_witness :
  expandDirectories sampleListing (fun s => mkQUrl [] s s) [clip_mov; GOPR0012]
  = [clip_mov; GOPR0012].
Proof.
  apply (proj1 (proj2 (@expandDirectories_by_url asciiQt sampleListing
                         (fun s => mkQUrl [] s s) [clip_mov; GOPR0012] []))).
  repeat constructor.
Defined.

(** ** [Util::sortedFileList], for every input *)

(** X13: in the code as written, [Util::sortedFileList] returns, for every
    list of URLs, the strings [Util::removeFileScheme] makes of them, one
    for each URL and in the order of the input. *)
Theorem sortedFileList_keeps_input_order {qt : QtText} (urls : list QUrl) :
  sortedFileList urls = map removeFileScheme urls
  /\ length (sortedFileList urls) = length urls.
Proof.
  rewrite sortedFileList_as_written. split; [reflexivity | apply length_map].
Qed.
